(** * client-timing: a shallow embedding of the timing transport

    Model of [http.go] (Transport, RoundTrip, InsertMetrics and the default
    functions) and of the [Timer] constructor and options ([New], [With*]).

    The collaborators from [github.com/mitchellh/go-server-timing] and
    [net/http] appear at the interface the code uses: a [Header] is an
    ordered list of pointers to [Metric]s kept in a heap, [NewMetric] appends
    a fresh metric under the header's lock, [ParseHeader] is a parameter of
    the development, and an inner round tripper is a function from request
    to (response, error). *)

From Stdlib Require Import ZArith.
From stdpp Require Import base gmap list strings.

Open Scope string_scope.
Open Scope list_scope.

(** ** Data model *)

(** Go pointers into the heap. *)
Abbreviation loc := nat.

(** [Metric.Start] sets [startTime]; [Metric.Stop] computes [Duration]
    from it when it is set. *)
Inductive Phase := Unstarted | Running | Stopped.

(** [servertiming.Metric]; a nil [Extra] map is [None]. *)
Record Metric := mkMetric {
  Name : string;
  Desc : string;
  Extra : option (gmap string string);
  Timing : Phase
}.

(** The fields of [http.Request] the package reads. *)
Record Request := mkRequest {
  Host : string;
  Method : string;
  URL_Path : string
}.

(** [http.Header]; a nil header is the empty map. *)
Abbreviation HTTPHeader := (gmap string (list string)).

Record Response := mkResponse {
  StatusCode : Z;
  RespHeader : HTTPHeader
}.

(** A Go [error]; [ErrMsg] is what [err.Error()] returns. *)
Record Error := mkError { ErrMsg : string }.

(** Observable steps of a round trip, recorded in the order they happen:
    the metric as it is when [Start] is called, the call of the inner round
    tripper, the arguments handed to the update function, and the read of
    the nested timing header passed to [ParseHeader]. *)
Inductive Event :=
| EvStart (l : loc) (m : Metric)
| EvInner (req : Request)
| EvUpdate (l : loc) (m : Metric) (resp : option Response) (err : option Error)
| EvParse (value : string).

(** The state a round trip runs against: the [Metrics] slice of the
    request's [servertiming.Header], the heap of metrics, and the trace. *)
Record State := mkState {
  st_hdr : list loc;
  st_heap : list Metric;
  st_trace : list Event
}.

(** A Go computation either returns or panics. *)
Inductive Result (A : Type) :=
| Ok (a : A) (s : State)
| Panic (msg : string) (s : State).
Arguments Ok {A}.
Arguments Panic {A}.

Definition M (A : Type) : Type := State -> Result A.

Global Instance M_ret : MRet M := fun A a s => Ok a s.
Global Instance M_bind : MBind M := fun A B f m s =>
  match m s with
  | Ok a s' => f a s'
  | Panic msg s' => Panic msg s'
  end.

Definition final_state {A} (r : Result A) : State :=
  match r with Ok _ s => s | Panic _ s => s end.

(** ** Heap primitives *)

Definition panic {A} (msg : string) : M A := fun s => Panic msg s.

Definition alloc (m : Metric) : M loc := fun s =>
  Ok (length (st_heap s))
     (mkState (st_hdr s) (st_heap s ++ [m]) (st_trace s)).

Definition load (l : loc) : M Metric := fun s =>
  match st_heap s !! l with
  | Some m => Ok m s
  | None => Panic "invalid memory address or nil pointer dereference" s
  end.

Definition store (l : loc) (m : Metric) : M unit := fun s =>
  Ok tt (mkState (st_hdr s) (<[l := m]> (st_heap s)) (st_trace s)).

Definition get_hdr : M (list loc) := fun s => Ok (st_hdr s) s.

Definition set_hdr (ls : list loc) : M unit := fun s =>
  Ok tt (mkState ls (st_heap s) (st_trace s)).

Definition log (e : Event) : M unit := fun s =>
  Ok tt (mkState (st_hdr s) (st_heap s) (st_trace s ++ [e])).

Fixpoint alloc_all (ms : list Metric) : M (list loc) :=
  match ms with
  | [] => mret []
  | m :: ms' => l ← alloc m; ls ← alloc_all ms'; mret (l :: ls)
  end.

(** ** go-server-timing *)

(** [Header.NewMetric] = [h.Add(&Metric{Name: name})]: append under the
    header's mutex. *)
Definition NewMetric (name : string) : M loc :=
  l ← alloc (mkMetric name "" None Unstarted);
  ls ← get_hdr;
  set_hdr (ls ++ [l]);;
  mret l.

Definition MetricWithDesc (l : loc) (desc : string) : M loc :=
  m ← load l;
  store l (mkMetric (Name m) desc (Extra m) (Timing m));;
  mret l.

Definition Start (l : loc) : M unit :=
  m ← load l;
  log (EvStart l m);;
  store l (mkMetric (Name m) (Desc m) (Extra m) Running).

(** [Stop] only records a duration when [Start] set a start time. *)
Definition Stop (l : loc) : M unit :=
  m ← load l;
  match Timing m with
  | Running => store l (mkMetric (Name m) (Desc m) (Extra m) Stopped)
  | _ => mret ()
  end.

(** [m.Extra[k] = v]; assignment to an entry of a nil map panics. *)
Definition set_extra (m : Metric) (k v : string) : option Metric :=
  match Extra m with
  | Some x => Some (mkMetric (Name m) (Desc m) (Some (<[k := v]> x)) (Timing m))
  | None => None
  end.

Definition extra_store (l : loc) (k v : string) : M unit :=
  m ← load l;
  match set_extra m k v with
  | Some m' => store l m'
  | None => panic "assignment to entry in nil map"
  end.

(** [servertiming.HeaderKey]. *)
Definition HeaderKey := "Server-Timing".

(** [http.Header.Get]: the first value stored under the (canonical) key,
    or the empty string. *)
Definition Get (h : HTTPHeader) (k : string) : string :=
  match h !! k with
  | Some (v :: _) => v
  | _ => ""
  end.

(** ** strings and strconv *)

(** [strings.Replace(s, ":", ".", -1)]. *)
Fixpoint replace_colons (s : string) : string :=
  match s with
  | EmptyString => EmptyString
  | String c s' =>
      String (if Ascii.eqb c (Ascii.ascii_of_nat 58) then Ascii.ascii_of_nat 46 else c) (replace_colons s')
  end.

Definition digit (d : N) : Ascii.ascii := Ascii.ascii_of_N (48 + d).

Fixpoint digits_acc (fuel : nat) (n : N) (acc : string) : string :=
  match fuel with
  | O => acc
  | S f =>
      let acc' := String (digit (n mod 10)) acc in
      if N.eqb (n / 10) 0 then acc' else digits_acc f (n / 10) acc'
  end.

(** Decimal digits of a natural number; [n] has at most [log2 n + 1]. *)
Definition N_to_decimal (n : N) : string :=
  digits_acc (S (N.to_nat (N.log2 n))) n "".

(** [strconv.Itoa]. *)
Definition Itoa (z : Z) : string :=
  match z with
  | Z0 => "0"
  | Zpos p => N_to_decimal (Npos p)
  | Zneg p => String.append "-" (N_to_decimal (Npos p))
  end.

(** ** Timer and options (timer.go) *)

(** An [http.RoundTripper] as the function from request to its results. *)
Abbreviation RoundTripper := (Request -> option Response * option Error).

(** An update function [func(m, resp, err)]: it writes through
    the metric pointer; [None] is a panic. *)
Abbreviation UpdateFunc :=
  (Metric -> option Response -> option Error -> option Metric).

Record Timer := mkTimer {
  inner : RoundTripper;
  metric : Request -> string;
  desc : Request -> string;
  update : UpdateFunc;
  name : string
}.

(** The options the package provides ([WithName], [WithTransport],
    [WithMetric], [WithDesc], [WithUpdate]); each writes one field through
    the [*Timer] it is given. *)
Inductive Option :=
| WithName (n : string)
| WithTransport (i : RoundTripper)
| WithMetric (f : Request -> string)
| WithDesc (f : Request -> string)
| WithUpdate (u : UpdateFunc).

Definition run_option (o : Option) (t : Timer) : Timer :=
  match o with
  | WithName n => mkTimer (inner t) (metric t) (desc t) (update t) n
  | WithTransport i => mkTimer i (metric t) (desc t) (update t) (name t)
  | WithMetric f => mkTimer (inner t) f (desc t) (update t) (name t)
  | WithDesc f => mkTimer (inner t) (metric t) f (update t) (name t)
  | WithUpdate u => mkTimer (inner t) (metric t) (desc t) u (name t)
  end.

(** Timers live in their own heap: [New] returns a [*Timer], [Transport]
    embeds a copy of [*t] in the new transport and hands [&tr.Timer] to the
    options. *)
Abbreviation TimerHeap := (list Timer).

(** [opt(p)] for a pointer [p]. *)
Definition apply_option (h : TimerHeap) (p : loc) (o : Option) : TimerHeap :=
  alter (run_option o) p h.

(** [for _, opt := range opts { opt(p) }]. *)
Definition apply_options (h : TimerHeap) (p : loc) (opts : list Option)
  : TimerHeap :=
  fold_left (fun h o => apply_option h p o) opts h.

(** The timer an options loop leaves in a cell that held [t]. *)
Definition run_options (opts : list Option) (t : Timer) : Timer :=
  fold_left (fun t o => run_option o t) opts t.

(** ** http.go: defaults *)

Definition KeySource := "source".

(** [DefaultMetric]: the request host with every ":" replaced by ".". *)
Definition DefaultMetric (req : Request) : string := replace_colons (Host req).

(** [DefaultDesc]: [fmt.Sprintf("%s %s", req.Method, req.URL.Path)]. *)
Definition DefaultDesc (req : Request) : string :=
  String.append (Method req) (String.append " " (URL_Path req)).

(** [DefaultUpdate]; [resp.StatusCode] on a nil response panics. *)
Definition DefaultUpdate : UpdateFunc := fun m resp err =>
  match err with
  | Some e => set_extra m "error" (ErrMsg e)
  | None =>
      match resp with
      | Some r => set_extra m "code" (Itoa (StatusCode r))
      | None => None
      end
  end.

(** [New]: allocate the default timer, then apply the options to it. *)
Definition New (dflt : RoundTripper) (h : TimerHeap) (opts : list Option)
  : TimerHeap * loc :=
  let p := length h in
  let t := mkTimer dflt DefaultMetric DefaultDesc DefaultUpdate "" in
  (apply_options (h ++ [t]) p opts, p).

(** [Timer.Transport]: copy [*t] into a fresh transport, then apply the
    per-call options to the copy. The result is the location of the
    transport's embedded [Timer]; its [timing] field is the request's
    header, which is the one collection of [State]. *)
Definition Transport (h : TimerHeap) (t : loc) (opts : list Option)
  : TimerHeap * loc :=
  let p := length h in
  let copy := match h !! t with Some tm => [tm] | None => [] end in
  (apply_options (h ++ copy) p opts, p).

(** [Timer.Client] wraps the transport of [Transport]. *)
Definition Client (h : TimerHeap) (t : loc) (opts : list Option)
  : TimerHeap * loc := Transport h t opts.

(** ** http.go: InsertMetrics and RoundTrip *)

(** [servertiming.ParseHeader] is a parameter: it maps a header value to
    the parsed metrics, or to [None] when it returns an error. *)
Abbreviation Parser := (string -> option (list Metric)).

(** [InsertMetrics(h, headers)]: parse the nested header; on success
    [h.Metrics = append(more.Metrics, h.Metrics...)]. *)
Definition InsertMetrics (ParseHeader : Parser) (headers : HTTPHeader)
  : M unit :=
  let v := Get headers HeaderKey in
  log (EvParse v);;
  match ParseHeader v with
  | None => mret ()
  | Some more =>
      ls ← alloc_all more;
      cur ← get_hdr;
      set_hdr (ls ++ cur)
  end.

(** [transport.RoundTrip], for the transport whose embedded timer is [t]. *)
Definition RoundTrip (ParseHeader : Parser) (t : Timer) (req : Request)
  : M (option Response * option Error) :=
  l ← NewMetric (metric t req);
  l ← MetricWithDesc l (desc t req);
  m ← load l;
  (match Extra m with
   | None => store l (mkMetric (Name m) (Desc m) (Some ∅) (Timing m))
   | Some _ => mret ()
   end);;
  (if bool_decide (name t ≠ "") then extra_store l KeySource (name t)
   else mret ());;
  Start l;;
  log (EvInner req);;
  let '(resp, err) := inner t req in
  Stop l;;
  m ← load l;
  log (EvUpdate l m resp err);;
  (match update t m resp err with
   | Some m' => store l m'
   | None => panic "update"
   end);;
  match err with
  | Some e => mret (None, Some e)
  | None =>
      match resp with
      | Some r => InsertMetrics ParseHeader (RespHeader r);; mret (resp, err)
      | None => panic "invalid memory address or nil pointer dereference"
      end
  end.

(** The state of a header with no metrics yet. *)
Definition empty_state : State := mkState [] [] [].

(** The entries of the collection, read through their pointers. *)
Definition collection (s : State) : list Metric :=
  omap (fun l => st_heap s !! l) (st_hdr s).

(** The events a computation added to the trace of [s]. *)
Definition new_events {A} (s : State) (r : Result A) : list Event :=
  drop (length (st_trace s)) (st_trace (final_state r)).

(** The entry a round trip creates, as it is when [Start] is called, and as
    it is handed to the update function. *)
Definition entry_start (t : Timer) (req : Request) : Metric :=
  mkMetric (metric t req) (desc t req)
    (Some (if bool_decide (name t ≠ "") then <[KeySource := name t]> ∅ else ∅))
    Unstarted.

Definition entry_stopped (t : Timer) (req : Request) : Metric :=
  mkMetric (metric t req) (desc t req) (Extra (entry_start t req)) Stopped.

(** Every pointer of the header points into the heap. *)
Definition hdr_wf (s : State) : Prop :=
  Forall (fun l => l < length (st_heap s)) (st_hdr s).

(** The metrics a response carries for the merge ([[]] when the parse
    fails). *)
Definition nested (ParseHeader : Parser) (r : Response) : list Metric :=
  default [] (ParseHeader (Get (RespHeader r) HeaderKey)).

(** An update function that does not panic on a metric with a non-nil
    [Extra] map when it is given a response or an error. *)
Definition update_ok (u : UpdateFunc) : Prop :=
  forall m resp err, Extra m ≠ None -> is_Some resp \/ is_Some err ->
  is_Some (u m resp err).

(** The [Timer] field an option writes. *)
Inductive Field := FInner | FMetric | FDesc | FUpdate | FName.

Definition field_of (o : Option) : Field :=
  match o with
  | WithName _ => FName
  | WithTransport _ => FInner
  | WithMetric _ => FMetric
  | WithDesc _ => FDesc
  | WithUpdate _ => FUpdate
  end.

(** ** Concurrent decorated calls sharing one header

    Seen from the shared [Metrics] slice, a decorated call does two things:
    [NewMetric] appends its entry under the header's mutex (one atomic
    step), and [InsertMetrics] evaluates [append(more.Metrics,
    h.Metrics...)], which reads [h.Metrics], and then assigns [h.Metrics].
    No lock is held between that read and that write. The other steps of
    [RoundTrip] only touch the call's own metric. *)
Module Fanout.

Inductive Op :=
| OpAdd (l : loc)
| OpRead
| OpWrite (more : list loc).

(** A goroutine: its remaining steps and the slice value it has read. *)
Record Thread := mkThread { ops : list Op; snap : list loc }.

(** The steps of one decorated call whose own entry is [self] and whose
    response parses to [nested] ([None]: no merge). *)
Definition call_ops (self : loc) (nested : option (list loc)) : list Op :=
  OpAdd self ::
  match nested with
  | None => []
  | Some more => [OpRead; OpWrite more]
  end.

Definition exec_op (g : list loc) (th : Thread) (o : Op) : list loc * list loc :=
  match o with
  | OpAdd l => (g ++ [l], snap th)
  | OpRead => (g, g)
  | OpWrite more => (more ++ snap th, snap th)
  end.

(** The scheduler runs one step of goroutine [i]. *)
Definition step (c : list loc * list Thread) (i : nat) : list loc * list Thread :=
  let '(g, ths) := c in
  match ths !! i with
  | Some (mkThread (o :: rest) sn) =>
      let '(g', sn') := exec_op g (mkThread (o :: rest) sn) o in
      (g', <[i := mkThread rest sn']> ths)
  | _ => (g, ths)
  end.

Definition run (g : list loc) (ths : list Thread) (sched : list nat)
  : list loc * list Thread :=
  fold_left step sched (g, ths).

Definition spawn (calls : list (loc * option (list loc))) : list Thread :=
  map (fun c => mkThread (call_ops c.1 c.2) []) calls.

End Fanout.

(** ** Callers: the handlers of the tests and of the example

    [handler.ServeHTTP] builds [c := h.timer.Client(r.Context())] and, for
    each address, runs [c.Get(addr)]: one decorated round trip per address
    (for a response that [http.Client] does not follow as a redirect). On
    the first error it answers [http.Error(w, err.Error(), 500)] and
    returns; otherwise it closes the body and goes on, and at the end it
    writes status 200. *)
Fixpoint round_trips (ParseHeader : Parser) (t : Timer) (reqs : list Request)
  : M (option Error) :=
  match reqs with
  | [] => mret None
  | req :: rest =>
      res ← RoundTrip ParseHeader t req;
      match res.2 with
      | Some e => mret (Some e)
      | None => round_trips ParseHeader t rest
      end
  end.

Definition ServeHTTP (ParseHeader : Parser) (t : Timer) (reqs : list Request)
  : M Z :=
  e ← round_trips ParseHeader t reqs;
  mret (match e with Some _ => 500%Z | None => 200%Z end).

(** The requests handed to the inner round tripper, in order. *)
Definition inner_calls (evs : list Event) : list Request :=
  omap (fun e => match e with EvInner r => Some r | _ => None end) evs.

(** The metrics the response of the inner call for [req] carries. *)
Definition nested_of (ParseHeader : Parser) (t : Timer) (req : Request)
  : list Metric :=
  match (inner t req).1 with Some r => nested ParseHeader r | None => [] end.

(** The call's entry once the update function has run on it. *)
Definition entry_after (t : Timer) (req : Request) : list Metric :=
  match update t (entry_stopped t req) (inner t req).1 (inner t req).2 with
  | Some m => [m]
  | None => []
  end.

(** The source label of an entry. *)
Definition source_of (m : Metric) : option string :=
  match Extra m with Some x => x !! KeySource | None => None end.

(** The characters of a string. *)
Definition chars (s : string) : list Ascii.ascii := String.list_ascii_of_string s.

(** ** Concrete inputs, after the package's tests *)

Definition mX : Metric :=
  mkMetric "github.com" "POST /api" (Some (<["status" := "201"]> ∅)) Stopped.

Definition hdr_nested : HTTPHeader := <[HeaderKey := ["x"]]> ∅.
Definition hdr_garbage : HTTPHeader := <[HeaderKey := ["garbage"]]> ∅.

(** A parser for the examples: no metric for the empty value, [mX] for
    ["x"], an error otherwise. *)
Definition parse_example : Parser := fun v =>
  if String.eqb v "" then Some []
  else if String.eqb v "x" then Some [mX] else None.

Definition resp_plain : Response := mkResponse 200 ∅.
Definition resp_nested : Response := mkResponse 200 hdr_nested.
Definition resp_garbage : Response := mkResponse 200 hdr_garbage.
Definition err_failed : Error := mkError "failed".

Definition req_example : Request := mkRequest "example.com:443" "GET" "/v1/x".

Definition timer_with (i : RoundTripper) (n : string) : Timer :=
  mkTimer i DefaultMetric DefaultDesc DefaultUpdate n.

(** A header that already holds one entry. *)
Definition state_A : State :=
  mkState [0] [mkMetric "A" "" (Some ∅) Stopped] [].

(** * Properties *)

(** ** Heap and evaluation lemmas *)

Lemma lookup_app_last {A} (h : list A) (x : A) : (h ++ [x]) !! length h = Some x.
Proof. rewrite lookup_app_r by lia. rewrite Nat.sub_diag. reflexivity. Qed.

Lemma insert_app_last {A} (h : list A) (x y : A) :
  <[length h := y]> (h ++ [x]) = h ++ [y].
Proof. induction h as [|a h IH]; simpl; [reflexivity|]. by rewrite IH. Qed.
Ltac step_heap :=
  repeat (progress (unfold mbind, M_bind, mret, M_ret, load, store, log, panic;
                    cbn -[lookup insert app length];
                    rewrite ?lookup_app_last, ?insert_app_last)).

Lemma RoundTrip_eq P t req s :
  RoundTrip P t req s =
  let l := length (st_heap s) in
  let '(resp, err) := inner t req in
  let tr := st_trace s ++ [EvStart l (entry_start t req); EvInner req;
                           EvUpdate l (entry_stopped t req) resp err] in
  match update t (entry_stopped t req) resp err with
  | Some m' =>
      (match err with
       | Some e => mret (None, Some e)
       | None =>
           match resp with
           | Some r => InsertMetrics P (RespHeader r);; mret (resp, err)
           | None => panic "invalid memory address or nil pointer dereference"
           end
       end) (mkState (st_hdr s ++ [l]) (st_heap s ++ [m']) tr)
  | None =>
      Panic "update" (mkState (st_hdr s ++ [l]) (st_heap s ++ [entry_stopped t req]) tr)
  end.
Proof.
  destruct s as [hd hp trc]. unfold RoundTrip, entry_stopped, entry_start.
  unfold NewMetric, MetricWithDesc, alloc, get_hdr, set_hdr, load, store, Start, Stop, log, extra_store, panic.
  step_heap.
  destruct (bool_decide (name t ≠ "")); step_heap;
  destruct (inner t req) as [resp err]; step_heap.
  all: destruct (update t _ resp err); step_heap; rewrite <- ?app_assoc; reflexivity.
Qed.

Lemma alloc_all_eq ms s :
  alloc_all ms s =
  Ok (seq (length (st_heap s)) (length ms))
     (mkState (st_hdr s) (st_heap s ++ ms) (st_trace s)).
Proof.
  revert s. induction ms as [|m ms IH]; intros [hd hp trc].
  - cbn. by rewrite app_nil_r.
  - unfold alloc_all; fold alloc_all.
    unfold mbind, M_bind, mret, M_ret, alloc. cbn -[app length seq].
    rewrite IH. cbn -[app length seq].
    rewrite length_app, Nat.add_1_r, <- app_assoc. reflexivity.
Qed.

Lemma InsertMetrics_eq P hdrs s :
  InsertMetrics P hdrs s =
  let v := Get hdrs HeaderKey in
  match P v with
  | None => Ok () (mkState (st_hdr s) (st_heap s) (st_trace s ++ [EvParse v]))
  | Some more =>
      Ok () (mkState (seq (length (st_heap s)) (length more) ++ st_hdr s)
                     (st_heap s ++ more) (st_trace s ++ [EvParse v]))
  end.
Proof.
  destruct s as [hd hp trc]. unfold InsertMetrics.
  unfold mbind, M_bind, mret, M_ret, log. cbn -[app length seq].
  destruct (P (Get hdrs HeaderKey)) as [more|]; [|reflexivity].
  rewrite alloc_all_eq. reflexivity.
Qed.

Lemma omap_cons {A B} (f : A -> option B) (x : A) (l : list A) :
  omap f (x :: l) = match f x with Some y => y :: omap f l | None => omap f l end.
Proof. reflexivity. Qed.

Lemma omap_lookup_seq (h ms : list Metric) :
  omap (fun l => (h ++ ms) !! l) (seq (length h) (length ms)) = ms.
Proof.
  revert h. induction ms as [|m ms IH]; intros h; [reflexivity|].
  cbn [length seq]. rewrite omap_cons.
  replace ((h ++ m :: ms) !! length h) with (Some m)
    by (rewrite lookup_app_r, Nat.sub_diag by lia; reflexivity).
  f_equal.
  specialize (IH (h ++ [m])). rewrite <- app_assoc, length_app in IH.
  simpl in IH. by rewrite Nat.add_1_r in IH.
Qed.

Lemma omap_lookup_prefix (h ext : list Metric) (ls : list loc) :
  Forall (fun l => l < length h) ls ->
  omap (fun l => (h ++ ext) !! l) ls = omap (fun l => h !! l) ls.
Proof.
  induction 1 as [|l ls Hl _ IH]; [reflexivity|].
  rewrite !omap_cons, lookup_app_l by exact Hl. by rewrite IH.
Qed.

(** A successful inner call: the entry is stored, then the nested metrics
    are allocated and their pointers put in front of the header. *)
Lemma RoundTrip_success P t req r m' s :
  inner t req = (Some r, None) ->
  update t (entry_stopped t req) (Some r) None = Some m' ->
  let l := length (st_heap s) in
  RoundTrip P t req s =
  Ok (Some r, None)
     (mkState (seq (S l) (length (nested P r)) ++ st_hdr s ++ [l])
              (st_heap s ++ m' :: nested P r)
              (st_trace s ++ [EvStart l (entry_start t req); EvInner req;
                              EvUpdate l (entry_stopped t req) (Some r) None;
                              EvParse (Get (RespHeader r) HeaderKey)])).
Proof.
  intros Hi Hu l. rewrite RoundTrip_eq. cbv zeta. rewrite Hi, Hu.
  unfold mbind, M_bind, mret, M_ret. rewrite InsertMetrics_eq. cbv zeta.
  cbn [st_hdr st_heap st_trace]. unfold nested.
  destruct (P (Get (RespHeader r) HeaderKey)) as [more|]; cbn [default].
  - rewrite length_app. cbn [length]. rewrite Nat.add_1_r.
    rewrite <- !app_assoc. reflexivity.
  - cbn [length seq app]. rewrite <- !app_assoc. reflexivity.
Qed.

Lemma collection_success P t req r m' s :
  hdr_wf s ->
  inner t req = (Some r, None) ->
  update t (entry_stopped t req) (Some r) None = Some m' ->
  exists s', RoundTrip P t req s = Ok (Some r, None) s' /\
    st_hdr s' = seq (S (length (st_heap s))) (length (nested P r))
                  ++ st_hdr s ++ [length (st_heap s)] /\
    collection s' = nested P r ++ collection s ++ [m'].
Proof.
  intros Hwf Hi Hu. eexists. split; [exact (RoundTrip_success P t req r m' s Hi Hu)|].
  split; [reflexivity|]. unfold collection. cbn [st_hdr st_heap].
  rewrite !omap_app.
  pose proof (omap_lookup_seq (st_heap s ++ [m']) (nested P r)) as Hs.
  rewrite <- app_assoc, length_app, Nat.add_1_r in Hs. cbn [app] in Hs.
  rewrite Hs. f_equal.
  replace (st_heap s ++ m' :: nested P r) with (st_heap s ++ (m' :: nested P r))
    by reflexivity.
  rewrite omap_lookup_prefix by exact Hwf. f_equal.
  cbn. rewrite lookup_app_r, Nat.sub_diag by lia. reflexivity.
Qed.

Lemma hdr_wf_success P t req r m' s :
  hdr_wf s ->
  inner t req = (Some r, None) ->
  update t (entry_stopped t req) (Some r) None = Some m' ->
  forall s', RoundTrip P t req s = Ok (Some r, None) s' -> hdr_wf s'.
Proof.
  intros Hwf Hi Hu s' Hrt. rewrite (RoundTrip_success P t req r m' s Hi Hu) in Hrt.
  injection Hrt as <-. unfold hdr_wf in *. cbn [st_hdr st_heap].
  rewrite length_app. cbn [length].
  apply Forall_app; split; [|apply Forall_app; split].
  - apply Forall_forall. intros x Hx. apply list_elem_of_In, in_seq in Hx. lia.
  - eapply Forall_impl; [exact Hwf|]. intros x Hx. cbv beta in Hx. lia.
  - constructor; [lia|constructor].
Qed.

Lemma entry_stopped_extra t req : Extra (entry_stopped t req) ≠ None.
Proof. unfold entry_stopped, entry_start. cbn. discriminate. Qed.

Lemma update_ok_entry u t req resp err :
  update_ok u -> is_Some resp \/ is_Some err ->
  exists m', u (entry_stopped t req) resp err = Some m'.
Proof.
  intros Hu Hre. destruct (Hu (entry_stopped t req) resp err) as [m' Hm'];
    [apply entry_stopped_extra|exact Hre|]. by exists m'.
Qed.

Lemma DefaultUpdate_ok : update_ok DefaultUpdate.
Proof.
  intros m resp err Hx Hre. unfold DefaultUpdate, set_extra.
  destruct (Extra m) as [x|]; [|congruence].
  destruct err as [e|]; [eexists; reflexivity|].
  destruct resp as [r|]; [eexists; reflexivity|].
  destruct Hre as [[? H]|[? H]]; discriminate.
Qed.

Lemma new_events_app {A} (s : State) (r : Result A) evs :
  st_trace (final_state r) = st_trace s ++ evs -> new_events s r = evs.
Proof. intros H. unfold new_events. rewrite H. apply drop_app_length. Qed.

(** ** C1: the merge splices the parsed metrics at the head *)

(** C1. [InsertMetrics] with a header that parses to [more] turns the
    collection [H] into [more ++ H], both in their own order; at the end of
    a successful [RoundTrip] the collection at merge time is the previous
    one followed by the call's own entry. *)
Theorem InsertMetrics_splices_at_head (P : Parser) (s : State) :
  hdr_wf s ->
  (forall hdrs more, P (Get hdrs HeaderKey) = Some more ->
     exists s', InsertMetrics P hdrs s = Ok () s' /\
                collection s' = more ++ collection s) /\
  (forall t req r more, inner t req = (Some r, None) ->
     update_ok (update t) ->
     P (Get (RespHeader r) HeaderKey) = Some more ->
     exists s' m', RoundTrip P t req s = Ok (Some r, None) s' /\
                   collection s' = more ++ (collection s ++ [m'])).
Proof.
  intros Hwf. split.
  - intros hdrs more Hp. rewrite InsertMetrics_eq. cbv zeta. rewrite Hp.
    eexists. split; [reflexivity|]. unfold collection. cbn [st_hdr st_heap].
    rewrite omap_app, omap_lookup_seq, omap_lookup_prefix by exact Hwf.
    reflexivity.
  - intros t req r more Hi Hu Hp.
    destruct (update_ok_entry (update t) t req (Some r) None Hu) as [m' Hm'];
      [left; eexists; reflexivity|].
    destruct (collection_success P t req r m' s Hwf Hi Hm') as (s' & Hrt & _ & Hc).
    exists s', m'. split; [exact Hrt|]. rewrite Hc. unfold nested. by rewrite Hp.
Qed.

(** ** C2: a header that does not parse leaves the collection alone *)

(** C2. When the response's timing header fails to parse (or, as for an
    absent header, parses to no metric), the call returns the inner
    response with a nil error and the collection gains only the call's own
    entry; starting from an empty collection it holds exactly that entry. *)
Theorem RoundTrip_unparsed_header_noop (P : Parser) t req r s :
  inner t req = (Some r, None) ->
  update_ok (update t) ->
  P (Get (RespHeader r) HeaderKey) = None \/
  P (Get (RespHeader r) HeaderKey) = Some [] ->
  exists s' m', RoundTrip P t req s = Ok (Some r, None) s' /\
    st_hdr s' = st_hdr s ++ [length (st_heap s)] /\
    st_heap s' = st_heap s ++ [m'] /\
    (st_hdr s = [] -> collection s' = [m']).
Proof.
  intros Hi Hu Hp.
  destruct (update_ok_entry (update t) t req (Some r) None Hu) as [m' Hm'];
    [left; eexists; reflexivity|].
  assert (Hn : nested P r = []) by (unfold nested; destruct Hp as [-> | ->]; reflexivity).
  eexists _, m'. split; [exact (RoundTrip_success P t req r m' s Hi Hm')|].
  rewrite Hn. cbn [length seq app]. split; [reflexivity|]. split; [reflexivity|].
  intros He. unfold collection. cbn [st_hdr st_heap]. rewrite He. cbn.
  rewrite lookup_app_r, Nat.sub_diag by lia. reflexivity.
Qed.

(** ** C3: the error path *)

Lemma RoundTrip_error P t req resp e m' s :
  inner t req = (resp, Some e) ->
  update t (entry_stopped t req) resp (Some e) = Some m' ->
  let l := length (st_heap s) in
  RoundTrip P t req s =
  Ok (None, Some e)
     (mkState (st_hdr s ++ [l]) (st_heap s ++ [m'])
              (st_trace s ++ [EvStart l (entry_start t req); EvInner req;
                              EvUpdate l (entry_stopped t req) resp (Some e)])).
Proof.
  intros Hi Hu l. rewrite RoundTrip_eq. cbv zeta. rewrite Hi, Hu. reflexivity.
Qed.

Lemma no_parse_event l m0 req m1 resp err v :
  EvParse v ∉ [EvStart l m0; EvInner req; EvUpdate l m1 resp err].
Proof.
  intros Hin. apply list_elem_of_In in Hin. cbn in Hin.
  destruct Hin as [H|[H|[H|[]]]]; discriminate.
Qed.

(** C3. When the inner round tripper returns a nil response and an error,
    the call returns exactly that (nil response, error) pair, the header is
    never read for a merge, and with [DefaultUpdate] the new entry's
    ["error"] attribute is the error's message. *)
Theorem RoundTrip_inner_error (P : Parser) t req e s :
  inner t req = (None, Some e) ->
  update_ok (update t) ->
  exists s', RoundTrip P t req s = Ok (None, Some e) s' /\
    (forall v, EvParse v ∉ new_events s (RoundTrip P t req s)) /\
    (update t = DefaultUpdate ->
     exists m x, st_heap s' !! length (st_heap s) = Some m /\
                 Extra m = Some x /\ x !! "error" = Some (ErrMsg e)).
Proof.
  intros Hi Hu.
  destruct (update_ok_entry (update t) t req None (Some e) Hu) as [m' Hm'];
    [right; eexists; reflexivity|].
  pose proof (RoundTrip_error P t req None e m' s Hi Hm') as Hrt.
  eexists. split; [exact Hrt|]. split.
  - intros v. rewrite (new_events_app s _ _ (f_equal (fun r => st_trace (final_state r)) Hrt)).
    apply no_parse_event.
  - intros Hd. rewrite Hd in Hm'. unfold DefaultUpdate, set_extra in Hm'.
    cbn in Hm'. injection Hm' as <-.
    eexists _, _. split; [cbn; apply lookup_app_last|]. split; [reflexivity|].
    apply lookup_insert_eq.
Qed.

(** ** C6: one entry per call, in call order *)

(** C6. A successful call adds one entry of its own, at the end of the
    collection, whatever it merges in front; two calls A then B without
    nested metrics leave the collection followed by A's entry then B's. *)
Theorem RoundTrip_one_entry_per_call (P : Parser) :
  (forall t req r s, hdr_wf s ->
     inner t req = (Some r, None) -> update_ok (update t) ->
     exists s' m', RoundTrip P t req s = Ok (Some r, None) s' /\
       st_hdr s' = seq (S (length (st_heap s))) (length (nested P r))
                     ++ st_hdr s ++ [length (st_heap s)] /\
       collection s' = nested P r ++ collection s ++ [m']) /\
  (forall tA tB reqA reqB rA rB s, hdr_wf s ->
     inner tA reqA = (Some rA, None) -> inner tB reqB = (Some rB, None) ->
     update_ok (update tA) -> update_ok (update tB) ->
     nested P rA = [] -> nested P rB = [] ->
     exists s1 s2 mA mB,
       RoundTrip P tA reqA s = Ok (Some rA, None) s1 /\
       RoundTrip P tB reqB s1 = Ok (Some rB, None) s2 /\
       st_hdr s2 = st_hdr s ++ [length (st_heap s); length (st_heap s1)] /\
       collection s2 = collection s ++ [mA; mB]).
Proof.
  split.
  - intros t req r s Hwf Hi Hu.
    destruct (update_ok_entry (update t) t req (Some r) None Hu) as [m' Hm'];
      [left; eexists; reflexivity|].
    destruct (collection_success P t req r m' s Hwf Hi Hm') as (s' & H1 & H2 & H3).
    by exists s', m'.
  - intros tA tB reqA reqB rA rB s Hwf HiA HiB HuA HuB HnA HnB.
    destruct (update_ok_entry (update tA) tA reqA (Some rA) None HuA) as [mA HmA];
      [left; eexists; reflexivity|].
    destruct (update_ok_entry (update tB) tB reqB (Some rB) None HuB) as [mB HmB];
      [left; eexists; reflexivity|].
    destruct (collection_success P tA reqA rA mA s Hwf HiA HmA) as (s1 & H1 & Hh1 & Hc1).
    pose proof (hdr_wf_success P tA reqA rA mA s Hwf HiA HmA s1 H1) as Hwf1.
    destruct (collection_success P tB reqB rB mB s1 Hwf1 HiB HmB) as (s2 & H2 & Hh2 & Hc2).
    exists s1, s2, mA, mB. split; [exact H1|]. split; [exact H2|]. split.
    + rewrite Hh2, Hh1, HnA, HnB. cbn [length seq app]. by rewrite <- app_assoc.
    + rewrite Hc2, Hc1, HnA, HnB. cbn [app]. by rewrite <- app_assoc.
Qed.

(** ** The trace of a round trip *)

Lemma RoundTrip_trace P t req s :
  let l := length (st_heap s) in
  exists rest,
    new_events s (RoundTrip P t req s) =
      [EvStart l (entry_start t req); EvInner req;
       EvUpdate l (entry_stopped t req) (inner t req).1 (inner t req).2] ++ rest /\
    Forall (fun e => exists v, e = EvParse v) rest /\
    ((inner t req).2 ≠ None -> rest = []).
Proof.
  intros l. rewrite RoundTrip_eq. cbv zeta.
  destruct (inner t req) as [resp err]. cbn [fst snd].
  destruct (update t (entry_stopped t req) resp err) as [m'|].
  - destruct err as [e|].
    + exists []. split; [|split; [constructor|reflexivity]].
      apply new_events_app. cbn. by rewrite ?app_nil_r.
    + destruct resp as [r|].
      * exists [EvParse (Get (RespHeader r) HeaderKey)].
        split; [|split; [repeat constructor; eauto|congruence]].
        apply new_events_app. unfold mbind, M_bind, mret, M_ret.
        rewrite InsertMetrics_eq. cbv zeta.
        destruct (P (Get (RespHeader r) HeaderKey)); cbn; by rewrite <- app_assoc.
      * exists []. split; [|split; [constructor|congruence]].
        apply new_events_app. cbn. by rewrite ?app_nil_r.
  - exists []. split; [|split; [constructor|reflexivity]].
    apply new_events_app. cbn. by rewrite ?app_nil_r.
Qed.

(** ** C7: default name, description and attributes *)

(** C7. With [DefaultMetric], [DefaultDesc] and [DefaultUpdate], the entry
    of a call is named after the request host with every ":" replaced by
    ".", described by the method, a space and the URL path, and after the
    call its attributes hold ["error"] = the error message when the inner
    call failed, and otherwise ["code"] = [strconv.Itoa] of the status code
    (for an inner round tripper that, as [http.RoundTripper] requires,
    returns a response whenever it returns no error). *)
Theorem RoundTrip_default_metadata (P : Parser) t req s :
  metric t = DefaultMetric -> desc t = DefaultDesc ->
  update t = DefaultUpdate ->
  ((inner t req).2 = None -> is_Some (inner t req).1) ->
  exists res s' m x,
    RoundTrip P t req s = Ok res s' /\
    st_heap s' !! length (st_heap s) = Some m /\
    Name m = replace_colons (Host req) /\
    Desc m = String.append (Method req) (String.append " " (URL_Path req)) /\
    Extra m = Some x /\
    match (inner t req).2 with
    | Some e => x !! "error" = Some (ErrMsg e)
    | None => exists r, (inner t req).1 = Some r /\
                        x !! "code" = Some (Itoa (StatusCode r))
    end.
Proof.
  destruct t as [i mt ds up nm]; cbn [metric desc update inner name].
  intros -> -> -> Hc.
  destruct (i req) as [resp [e|]] eqn:Hi; cbn [fst snd] in *.
  - pose proof (RoundTrip_error P (mkTimer i DefaultMetric DefaultDesc DefaultUpdate nm)
                  req resp e _ s Hi eq_refl) as Hrt.
    do 4 eexists. split; [exact Hrt|]. split; [cbn; apply lookup_app_last|].
    split; [reflexivity|]. split; [reflexivity|]. split; [reflexivity|].
    apply lookup_insert_eq.
  - destruct resp as [r|]; [|destruct (Hc eq_refl) as [? ?]; discriminate].
    pose proof (RoundTrip_success P (mkTimer i DefaultMetric DefaultDesc DefaultUpdate nm)
                  req r _ s Hi eq_refl) as Hrt.
    do 4 eexists. split; [exact Hrt|]. split; [cbn; apply list_lookup_middle; reflexivity|].
    split; [reflexivity|]. split; [reflexivity|]. split; [reflexivity|].
    exists r. split; [reflexivity|]. apply lookup_insert_eq.
Qed.

(** ** C8: the attributes map before any write, and the source label *)

(** C8. In every round trip the metric's [Extra] map is non-nil when the
    timer is started and whenever the update function is called; when the
    timer's name is not empty, ["source"] holds it already when [Start] is
    called. The update function is called once on the call's entry. *)
Theorem RoundTrip_extra_before_writes (P : Parser) t req s :
  let evs := new_events s (RoundTrip P t req s) in
  let l := length (st_heap s) in
  (exists m x, EvStart l m ∈ evs /\ Extra m = Some x /\
     (name t ≠ "" -> x !! KeySource = Some (name t))) /\
  (exists m, EvUpdate l m (inner t req).1 (inner t req).2 ∈ evs) /\
  (forall l' m resp err, EvUpdate l' m resp err ∈ evs -> Extra m ≠ None).
Proof.
  destruct (RoundTrip_trace P t req s) as (rest & He & Hr & _).
  cbv zeta. rewrite He. split; [|split].
  - eexists _, _. split; [left|]. split; [reflexivity|].
    intros Hn. rewrite bool_decide_true by exact Hn. apply lookup_insert_eq.
  - eexists. right. right. left.
  - intros l' m resp err Hin. apply elem_of_app in Hin as [Hin|Hin].
    + apply list_elem_of_In in Hin. cbn in Hin.
      destruct Hin as [H|[H|[H|[]]]]; try discriminate.
      injection H as _ <- _ _. apply entry_stopped_extra.
    + rewrite Forall_forall in Hr. destruct (Hr _ Hin) as [v Hv]. discriminate.
Qed.

(** ** C9: a response together with an error *)

(** C9. When the inner round tripper returns both a response and an
    error, the update function is called with both, on the entry already
    stopped; the header is not read for a merge; and when the update
    function returns, the call fails with that error. *)
Theorem RoundTrip_response_and_error (P : Parser) t req r e s :
  inner t req = (Some r, Some e) ->
  let evs := new_events s (RoundTrip P t req s) in
  (exists m, EvUpdate (length (st_heap s)) m (Some r) (Some e) ∈ evs /\
             Timing m = Stopped) /\
  (forall v, EvParse v ∉ evs) /\
  (update_ok (update t) ->
   exists s', RoundTrip P t req s = Ok (None, Some e) s').
Proof.
  intros Hi. destruct (RoundTrip_trace P t req s) as (rest & He & _ & Hr).
  rewrite Hi in He, Hr. cbn [fst snd] in He, Hr.
  rewrite (Hr ltac:(discriminate)), app_nil_r in He.
  cbv zeta. rewrite He. split; [|split].
  - eexists. split; [right; right; left|reflexivity].
  - intros v. apply no_parse_event.
  - intros Hu.
    destruct (update_ok_entry (update t) t req (Some r) (Some e) Hu) as [m' Hm'];
      [right; eexists; reflexivity|].
    eexists. exact (RoundTrip_error P t req (Some r) e m' s Hi Hm').
Qed.

(** ** Timer heap lemmas *)

Lemma apply_options_at h p opts :
  apply_options h p opts !! p = run_options opts <$> h !! p.
Proof.
  revert h. induction opts as [|o opts IH]; intros h; cbn.
  - by destruct (h !! p).
  - unfold apply_options in IH. rewrite IH. unfold apply_option.
    rewrite list_lookup_alter_eq. by destruct (h !! p).
Qed.

Lemma apply_options_ne h p opts q :
  p ≠ q -> apply_options h p opts !! q = h !! q.
Proof.
  intros Hne. revert h. induction opts as [|o opts IH]; intros h; [reflexivity|].
  cbn. unfold apply_options in IH. rewrite IH. unfold apply_option.
  by apply list_lookup_alter_ne.
Qed.

Lemma run_options_app opts1 opts2 t :
  run_options (opts1 ++ opts2) t = run_options opts2 (run_options opts1 t).
Proof. unfold run_options. apply fold_left_app. Qed.

Lemma run_option_comm o o' t :
  field_of o ≠ field_of o' ->
  run_option o (run_option o' t) = run_option o' (run_option o t).
Proof. destruct o, o', t; cbn; intros H; first [reflexivity | congruence]. Qed.

Lemma run_option_idem o t : run_option o (run_option o t) = run_option o t.
Proof. by destruct o, t. Qed.

Lemma run_options_keeps o post t :
  Forall (fun o' => field_of o' ≠ field_of o) post ->
  run_option o t = t -> run_option o (run_options post t) = run_options post t.
Proof.
  intros Hpost. revert t. induction Hpost as [|o' post Ho' _ IH]; intros t Ht;
    [exact Ht|].
  cbn. apply IH. rewrite run_option_comm by congruence. by rewrite Ht.
Qed.

(** ** C5: per-call options work on a copy *)

(** C5. [Transport] (and so [Client]) copies the base timer into a fresh
    cell and applies the per-call options there: the base timer is left as
    it was, every other cell too, and the new transport's timer is the base
    one with the options applied. *)
Theorem Transport_leaves_base (h : TimerHeap) (p : loc) (tm : Timer)
    (opts : list Option) :
  h !! p = Some tm ->
  let '(h', q) := Transport h p opts in
  q = length h /\
  h' !! p = Some tm /\
  h' !! q = Some (run_options opts tm) /\
  (forall i, i ≠ q -> h' !! i = h !! i).
Proof.
  intros Hp. unfold Transport. rewrite Hp. cbv zeta.
  assert (Hlt : p < length h) by (eapply lookup_lt_Some; exact Hp).
  split; [reflexivity|]. split; [|split].
  - rewrite apply_options_ne by lia. by rewrite lookup_app_l.
  - rewrite apply_options_at, lookup_app_last. reflexivity.
  - intros i Hi. rewrite apply_options_ne by congruence.
    destruct (decide (i < length h)) as [Hl|Hl].
    + by rewrite lookup_app_l.
    + rewrite lookup_app_r by lia. rewrite (lookup_ge_None_2 h i) by lia.
      apply lookup_ge_None_2. cbn. lia.
Qed.

(** ** C10: options apply in order, the last one wins *)

(** C10. The options given to [New] and then to [Transport] act as one
    sequence, base options first: when [o] is followed only by options
    that write other fields, the field [o] writes has [o]'s value in the
    timer of the transport (the timer is a fixed point of [o]). *)
Theorem options_last_wins (dflt : RoundTripper) (h : TimerHeap)
    (base_opts call_opts pre post : list Option) (o : Option) :
  base_opts ++ call_opts = pre ++ o :: post ->
  Forall (fun o' => field_of o' ≠ field_of o) post ->
  let '(h1, p) := New dflt h base_opts in
  let '(h2, q) := Transport h1 p call_opts in
  exists tm, h2 !! q = Some tm /\
             tm = run_options (base_opts ++ call_opts)
                    (mkTimer dflt DefaultMetric DefaultDesc DefaultUpdate "") /\
             run_option o tm = tm.
Proof.
  intros Hsplit Hpost. unfold New. cbv zeta.
  set (d := mkTimer dflt DefaultMetric DefaultDesc DefaultUpdate "").
  assert (H1 : apply_options (h ++ [d]) (length h) base_opts !! length h
               = Some (run_options base_opts d))
    by (rewrite apply_options_at, lookup_app_last; reflexivity).
  unfold Transport. rewrite H1. cbv zeta.
  eexists. split; [rewrite apply_options_at, lookup_app_last; reflexivity|].
  rewrite <- run_options_app. split; [reflexivity|].
  rewrite Hsplit, run_options_app. cbn.
  apply run_options_keeps; [exact Hpost|]. apply run_option_idem.
Qed.

(** ** C4: the merge is not atomic *)

(** C4. [InsertMetrics] reads [h.Metrics] and assigns it later with no
    lock, while [NewMetric] appends under the header's mutex. Two
    concurrent calls on an empty header: if call 1 (entry 0, nested entry
    2) reads the slice, call 2 then appends its entry 1, and call 1 writes
    back, entry 1 is lost; run one after the other the calls give
    [[2; 0; 1]]. With no nested metrics but a header that parses to the
    empty list, two calls leave one entry. *)
Theorem fanout_merge_loses_entry :
  (Fanout.run [] (Fanout.spawn [(0, Some [2]); (1, None)]) [0; 0; 0; 1]).1
    = [2; 0; 1] /\
  (Fanout.run [] (Fanout.spawn [(0, Some [2]); (1, None)]) [0; 0; 1; 0]).1
    = [2; 0] /\
  (Fanout.run [] (Fanout.spawn [(0, Some []); (1, Some [])])
     [0; 0; 1; 0; 1; 1]).1 = [0].
Proof. split; [|split]; reflexivity. Qed.

(** ** Witnesses *)

Lemma InsertMetrics_splices_at_head_witness :
  hdr_wf state_A /\
  parse_example (Get (RespHeader resp_nested) HeaderKey) = Some [mX] /\
  exists s' m',
    RoundTrip parse_example (timer_with (fun _ => (Some resp_nested, None)) "")
      req_example state_A = Ok (Some resp_nested, None) s' /\
    collection s' = [mX] ++ (collection state_A ++ [m']).
Proof.
  assert (Hwf : hdr_wf state_A) by (repeat constructor).
  split; [exact Hwf|]. split; [reflexivity|].
  apply (proj2 (InsertMetrics_splices_at_head parse_example state_A Hwf)).
  - reflexivity.
  - apply DefaultUpdate_ok.
  - reflexivity.
Defined.

Lemma RoundTrip_unparsed_header_noop_witness :
  parse_example (Get (RespHeader resp_garbage) HeaderKey) = None /\
  exists s' m',
    RoundTrip parse_example (timer_with (fun _ => (Some resp_garbage, None)) "")
      req_example empty_state = Ok (Some resp_garbage, None) s' /\
    st_hdr s' = st_hdr empty_state ++ [length (st_heap empty_state)] /\
    st_heap s' = st_heap empty_state ++ [m'] /\
    (st_hdr empty_state = [] -> collection s' = [m']).
Proof.
  split; [reflexivity|].
  apply (RoundTrip_unparsed_header_noop parse_example
           (timer_with (fun _ => (Some resp_garbage, None)) "") req_example
           resp_garbage empty_state).
  - reflexivity.
  - apply DefaultUpdate_ok.
  - left. reflexivity.
Defined.

Lemma RoundTrip_inner_error_witness :
  exists s',
    RoundTrip parse_example (timer_with (fun _ => (None, Some err_failed)) "")
      req_example empty_state = Ok (None, Some err_failed) s' /\
    (forall v, EvParse v ∉ new_events empty_state
       (RoundTrip parse_example (timer_with (fun _ => (None, Some err_failed)) "")
          req_example empty_state)) /\
    (update (timer_with (fun _ => (None, Some err_failed)) "") = DefaultUpdate ->
     exists m x, st_heap s' !! length (st_heap empty_state) = Some m /\
                 Extra m = Some x /\ x !! "error" = Some (ErrMsg err_failed)).
Proof.
  apply RoundTrip_inner_error; [reflexivity|apply DefaultUpdate_ok].
Defined.

Lemma RoundTrip_one_entry_per_call_witness :
  (exists s' m',
     RoundTrip parse_example (timer_with (fun _ => (Some resp_nested, None)) "")
       req_example state_A = Ok (Some resp_nested, None) s' /\
     st_hdr s' = seq (S (length (st_heap state_A)))
                   (length (nested parse_example resp_nested))
                   ++ st_hdr state_A ++ [length (st_heap state_A)] /\
     collection s' = nested parse_example resp_nested ++ collection state_A ++ [m']) /\
  (exists s1 s2 mA mB,
     RoundTrip parse_example (timer_with (fun _ => (Some resp_plain, None)) "A")
       req_example empty_state = Ok (Some resp_plain, None) s1 /\
     RoundTrip parse_example (timer_with (fun _ => (Some resp_plain, None)) "B")
       req_example s1 = Ok (Some resp_plain, None) s2 /\
     st_hdr s2 = st_hdr empty_state ++ [length (st_heap empty_state); length (st_heap s1)] /\
     collection s2 = collection empty_state ++ [mA; mB]).
Proof.
  split.
  - apply (proj1 (RoundTrip_one_entry_per_call parse_example)).
    + repeat constructor.
    + reflexivity.
    + apply DefaultUpdate_ok.
  - apply (proj2 (RoundTrip_one_entry_per_call parse_example)).
    + constructor.
    + reflexivity.
    + reflexivity.
    + apply DefaultUpdate_ok.
    + apply DefaultUpdate_ok.
    + reflexivity.
    + reflexivity.
Defined.

Lemma RoundTrip_default_metadata_witness :
  DefaultMetric req_example = "example.com.443" /\
  DefaultDesc req_example = "GET /v1/x" /\
  exists res s' m x,
    RoundTrip parse_example (timer_with (fun _ => (Some resp_plain, None)) "name")
      req_example empty_state = Ok res s' /\
    st_heap s' !! length (st_heap empty_state) = Some m /\
    Name m = replace_colons (Host req_example) /\
    Desc m = String.append (Method req_example)
               (String.append " " (URL_Path req_example)) /\
    Extra m = Some x /\
    exists r, Some resp_plain = Some r /\ x !! "code" = Some (Itoa (StatusCode r)).
Proof.
  split; [reflexivity|]. split; [reflexivity|].
  apply (RoundTrip_default_metadata parse_example
           (timer_with (fun _ => (Some resp_plain, None)) "name") req_example
           empty_state); try reflexivity.
  intros _. eexists. reflexivity.
Defined.

Lemma RoundTrip_extra_before_writes_witness :
  let t := timer_with (fun _ => (Some resp_plain, None)) "name" in
  let evs := new_events empty_state (RoundTrip parse_example t req_example empty_state) in
  (exists m x, EvStart 0 m ∈ evs /\ Extra m = Some x /\
     (name t ≠ "" -> x !! KeySource = Some (name t))) /\
  (exists m, EvUpdate 0 m (inner t req_example).1 (inner t req_example).2 ∈ evs) /\
  (forall l' m resp err, EvUpdate l' m resp err ∈ evs -> Extra m ≠ None).
Proof.
  exact (RoundTrip_extra_before_writes parse_example
           (timer_with (fun _ => (Some resp_plain, None)) "name") req_example
           empty_state).
Defined.

Lemma RoundTrip_response_and_error_witness :
  let t := timer_with (fun _ => (Some resp_plain, Some err_failed)) "" in
  inner t req_example = (Some resp_plain, Some err_failed) /\
  let evs := new_events empty_state (RoundTrip parse_example t req_example empty_state) in
  (exists m, EvUpdate 0 m (Some resp_plain) (Some err_failed) ∈ evs /\
             Timing m = Stopped) /\
  (forall v, EvParse v ∉ evs) /\
  (update_ok (update t) ->
   exists s', RoundTrip parse_example t req_example empty_state
              = Ok (None, Some err_failed) s').
Proof.
  split; [reflexivity|].
  apply (RoundTrip_response_and_error parse_example
           (timer_with (fun _ => (Some resp_plain, Some err_failed)) "")
           req_example resp_plain err_failed empty_state).
  reflexivity.
Defined.

Lemma Transport_leaves_base_witness :
  let base := timer_with (fun _ => (Some resp_plain, None)) "name" in
  [base] !! 0 = Some base /\
  let '(h', q) := Transport [base] 0 [WithName "other-name"] in
  q = length [base] /\
  h' !! 0 = Some base /\
  h' !! q = Some (run_options [WithName "other-name"] base) /\
  (forall i, i ≠ q -> h' !! i = [base] !! i).
Proof.
  split; [reflexivity|].
  apply (Transport_leaves_base [timer_with (fun _ => (Some resp_plain, None)) "name"]
           0 _ [WithName "other-name"]).
  reflexivity.
Defined.

Lemma options_last_wins_witness :
  let i : RoundTripper := fun _ => (Some resp_plain, None) in
  [WithName "name"] ++ [WithName "other-name"]
    = [WithName "name"] ++ WithName "other-name" :: [] /\
  let '(h1, p) := New i [] [WithName "name"] in
  let '(h2, q) := Transport h1 p [WithName "other-name"] in
  exists tm, h2 !! q = Some tm /\
             tm = run_options ([WithName "name"] ++ [WithName "other-name"])
                    (mkTimer i DefaultMetric DefaultDesc DefaultUpdate "") /\
             run_option (WithName "other-name") tm = tm.
Proof.
  split; [reflexivity|].
  apply (options_last_wins (fun _ => (Some resp_plain, None)) []
           [WithName "name"] [WithName "other-name"] [WithName "name"] []
           (WithName "other-name")).
  - reflexivity.
  - constructor.
Defined.

(** * Further properties of the transport and its callers *)

(** ** Shape of any round trip, returned or panicked *)

Lemma RoundTrip_final P t req s :
  let f := final_state (RoundTrip P t req s) in
  let l := length (st_heap s) in
  exists pre ext rest,
    st_hdr f = pre ++ st_hdr s ++ [l] /\
    st_heap f = st_heap s ++ ext /\
    st_trace f = st_trace s ++
      [EvStart l (entry_start t req); EvInner req;
       EvUpdate l (entry_stopped t req) (inner t req).1 (inner t req).2] ++ rest /\
    Forall (fun e => exists v, e = EvParse v) rest.
Proof.
  cbv zeta. rewrite RoundTrip_eq. cbv zeta.
  destruct (inner t req) as [resp err]. cbn [fst snd].
  destruct (update t (entry_stopped t req) resp err) as [m'|].
  - destruct err as [e|].
    + exists [], [m'], []. cbn. rewrite ?app_nil_r. repeat split; constructor.
    + destruct resp as [r|].
      * unfold mbind, M_bind, mret, M_ret. rewrite InsertMetrics_eq. cbv zeta.
        destruct (P (Get (RespHeader r) HeaderKey)) as [more|]; cbn.
        -- exists (seq (S (length (st_heap s))) (length more)), (m' :: more),
             [EvParse (Get (RespHeader r) HeaderKey)].
           rewrite length_app, Nat.add_1_r. cbn.
           rewrite <- !app_assoc. repeat split; repeat constructor; eauto.
        -- exists [], [m'], [EvParse (Get (RespHeader r) HeaderKey)].
           rewrite <- !app_assoc. repeat split; repeat constructor; eauto.
      * exists [], [m'], []. cbn. rewrite ?app_nil_r. repeat split; constructor.
  - exists [], [entry_stopped t req], []. cbn. rewrite ?app_nil_r.
    repeat split; constructor.
Qed.

Lemma inner_calls_parse_events rest :
  Forall (fun e => exists v, e = EvParse v) rest -> inner_calls rest = [].
Proof.
  induction 1 as [|e rest [v ->] _ IH]; [reflexivity|]. exact IH.
Qed.

Lemma inner_calls_app evs1 evs2 :
  inner_calls (evs1 ++ evs2) = inner_calls evs1 ++ inner_calls evs2.
Proof. apply omap_app. Qed.

(** ** X1: one call of the inner round tripper *)

(** X1. Whatever the outcome (a returned error, a merge, a panic in the
    update function), a round trip passes exactly one request to the inner
    round tripper: the one it was given. *)
Theorem RoundTrip_calls_inner_once (P : Parser) t req s :
  inner_calls (new_events s (RoundTrip P t req s)) = [req].
Proof.
  destruct (RoundTrip_final P t req s) as (pre & ext & rest & _ & _ & Htr & Hr).
  unfold new_events. rewrite Htr, drop_app_length, inner_calls_app.
  rewrite (inner_calls_parse_events rest Hr). reflexivity.
Qed.

(** ** X2: the result is the inner round tripper's *)

(** X2. When a round trip returns, it returns what the inner round tripper
    returned: [(nil, err)] when the error is non-nil (a response that came
    with it is dropped), and the inner [(resp, nil)] otherwise. *)
Theorem RoundTrip_returns_inner_result (P : Parser) t req s res s' :
  RoundTrip P t req s = Ok res s' ->
  res = match (inner t req).2 with
        | Some e => (None, Some e)
        | None => inner t req
        end.
Proof.
  rewrite RoundTrip_eq. cbv zeta.
  destruct (inner t req) as [resp err]. cbn [fst snd].
  destruct (update t (entry_stopped t req) resp err) as [m'|]; [|discriminate].
  destruct err as [e|].
  - unfold mret, M_ret. intros H. injection H. congruence.
  - destruct resp as [r|]; [|discriminate].
    unfold mbind, M_bind, mret, M_ret. rewrite InsertMetrics_eq. cbv zeta.
    destruct (P (Get (RespHeader r) HeaderKey)); cbn; intros H; injection H; congruence.
Qed.

(** ** X3: a nil response with a nil error *)

(** X3. If the inner round tripper breaks the [http.RoundTripper] contract
    and returns neither a response nor an error, the round trip panics,
    whatever the update function: [DefaultUpdate] dereferences the nil
    response, and any update that returns leaves [resp.Header] to be read
    from a nil response. *)
Theorem RoundTrip_nil_response_nil_error_panics (P : Parser) t req s :
  inner t req = (None, None) ->
  exists msg s', RoundTrip P t req s = Panic msg s'.
Proof.
  intros Hi. rewrite RoundTrip_eq. cbv zeta. rewrite Hi.
  destruct (update t (entry_stopped t req) None None); cbn; eauto.
Qed.

(** ** X4: existing entries are left alone *)


(** ** X5: DefaultMetric replaces every colon, and only colons *)

Lemma replace_colons_spec (s : string) :
  String.length (replace_colons s) = String.length s /\
  (forall i c, String.get i s = Some c ->
     String.get i (replace_colons s) =
       Some (if Ascii.eqb c (Ascii.ascii_of_nat 58) then Ascii.ascii_of_nat 46 else c)) /\
  ~ In (Ascii.ascii_of_nat 58) (chars (replace_colons s)).
Proof.
  induction s as [|c s (IHl & IHg & IHn)]; cbn.
  - split; [reflexivity|]. split; [discriminate|tauto].
  - split; [by rewrite IHl|]. split.
    + intros [|i] c'; cbn; [intros H; injection H as <-; reflexivity|apply IHg].
    + intros [Hc|Hc]; [|exact (IHn Hc)].
      destruct (Ascii.eqb c (Ascii.ascii_of_nat 58)) eqn:E; [discriminate|].
      subst c. rewrite Ascii.eqb_refl in E. discriminate.
Qed.

(** X5. [DefaultMetric] (strings.Replace(req.Host, ":", ".", -1)) gives a
    name of the host's length, equal to the host at every position except
    that each ":" becomes "."; the name has no ":" left. *)
Theorem DefaultMetric_replaces_colons (req : Request) :
  String.length (DefaultMetric req) = String.length (Host req) /\
  (forall i c, String.get i (Host req) = Some c ->
     String.get i (DefaultMetric req) =
       Some (if Ascii.eqb c (Ascii.ascii_of_nat 58) then Ascii.ascii_of_nat 46 else c)) /\
  ~ In (Ascii.ascii_of_nat 58) (chars (DefaultMetric req)).
Proof. apply replace_colons_spec. Qed.

(** ** X6: transports made from one timer do not see each other's options *)

Lemma apply_options_length h p opts :
  length (apply_options h p opts) = length h.
Proof.
  revert h. induction opts as [|o opts IH]; intros h; [reflexivity|].
  cbn. unfold apply_options in IH. rewrite IH. unfold apply_option.
  apply length_alter.
Qed.


Lemma apply_options_alter h p opts :
  apply_options h p opts = alter (run_options opts) p h.
Proof.
  revert h. induction opts as [|o opts IH]; intros h.
  - cbn. symmetry. by apply list_alter_id.
  - cbn. unfold apply_options in IH. rewrite IH. unfold apply_option.
    rewrite list_alter_alter_eq. reflexivity.
Qed.

(** X6. Two transports made from the same timer, one after the other,
    each get a timer of their own: the base timer is unchanged, and each
    transport's timer is the base one with that call's options only. *)
Theorem Transport_calls_independent (h : TimerHeap) (p : loc) (tm : Timer)
    (opts1 opts2 : list Option) :
  h !! p = Some tm ->
  let '(h1, q1) := Transport h p opts1 in
  let '(h2, q2) := Transport h1 p opts2 in
  q1 ≠ q2 /\
  h2 !! p = Some tm /\
  h2 !! q1 = Some (run_options opts1 tm) /\
  h2 !! q2 = Some (run_options opts2 tm).
Proof.
  intros Hp. assert (Hlt : p < length h) by (eapply lookup_lt_Some; exact Hp).
  unfold Transport at 1. rewrite Hp. cbv zeta.
  set (h1 := apply_options (h ++ [tm]) (length h) opts1).
  assert (Hlen : length h1 = S (length h))
    by (unfold h1; rewrite apply_options_length, length_app; cbn; lia).
  assert (H1p : h1 !! p = Some tm)
    by (unfold h1; rewrite apply_options_ne by lia; by rewrite lookup_app_l).
  assert (H1q : h1 !! length h = Some (run_options opts1 tm))
    by (unfold h1; rewrite apply_options_at, lookup_app_last; reflexivity).
  unfold Transport. rewrite H1p. cbv zeta. rewrite Hlen.
  split; [lia|]. split; [|split].
  - rewrite apply_options_ne by lia. by rewrite lookup_app_l by lia.
  - rewrite apply_options_ne by lia. by rewrite lookup_app_l by lia.
  - rewrite <- Hlen, apply_options_at, lookup_app_last. reflexivity.
Qed.

(** ** X7: options on different fields commute *)

(** X7. Swapping two adjacent options that write different fields of the
    timer changes nothing, in the options of [New] as in the per-call
    options of [Transport]. *)
Theorem options_commute (dflt : RoundTripper) (h : TimerHeap) (p : loc)
    (pre post : list Option) (o o' : Option) :
  field_of o ≠ field_of o' ->
  New dflt h (pre ++ o :: o' :: post) = New dflt h (pre ++ o' :: o :: post) /\
  Transport h p (pre ++ o :: o' :: post) = Transport h p (pre ++ o' :: o :: post).
Proof.
  intros Hf.
  assert (Hrun : forall t, run_options (pre ++ o :: o' :: post) t =
                           run_options (pre ++ o' :: o :: post) t).
  { intros t. rewrite !run_options_app. cbn.
    by rewrite (run_option_comm o' o) by congruence. }
  unfold New, Transport. rewrite !apply_options_alter.
  split; f_equal; apply list_alter_ext; auto.
Qed.

(** ** X8, X9: the handler's loop of requests *)

Lemma round_trips_cons P t req rest s :
  round_trips P t (req :: rest) s =
  match RoundTrip P t req s with
  | Ok res s1 => match res.2 with
                 | Some e => Ok (Some e) s1
                 | None => round_trips P t rest s1
                 end
  | Panic msg s1 => Panic msg s1
  end.
Proof.
  cbn. unfold mbind, M_bind. destruct (RoundTrip P t req s) as [[r e] s1|]; [|reflexivity].
  by destruct e.
Qed.

Lemma ServeHTTP_eq P t reqs s :
  ServeHTTP P t reqs s =
  match round_trips P t reqs s with
  | Ok e s' => Ok (match e with Some _ => 500%Z | None => 200%Z end) s'
  | Panic msg s' => Panic msg s'
  end.
Proof. reflexivity. Qed.

Lemma round_trips_success P t reqs :
  update_ok (update t) ->
  Forall (fun req => exists r, inner t req = (Some r, None)) reqs ->
  forall s, hdr_wf s ->
  exists s', round_trips P t reqs s = Ok None s' /\ hdr_wf s' /\
    collection s' = concat (rev (map (nested_of P t) reqs)) ++ collection s
                    ++ concat (map (entry_after t) reqs) /\
    exists evs, st_trace s' = st_trace s ++ evs /\ inner_calls evs = reqs.
Proof.
  intros Hu Hall. induction Hall as [|req rest [r Hi] _ IH]; intros s Hwf.
  - exists s. split; [reflexivity|]. split; [exact Hwf|]. cbn.
    rewrite app_nil_r. split; [reflexivity|]. exists []. by rewrite app_nil_r.
  - destruct (update_ok_entry (update t) t req (Some r) None Hu)
      as [m' Hm']; [left; eexists; reflexivity|].
    pose proof (RoundTrip_success P t req r m' s Hi Hm') as Hrt. cbv zeta in Hrt.
    destruct (collection_success P t req r m' s Hwf Hi Hm') as (s1 & Hrt1 & _ & Hc1).
    pose proof (hdr_wf_success P t req r m' s Hwf Hi Hm' s1 Hrt1) as Hwf1.
    destruct (IH s1 Hwf1) as (s' & Hrs & Hwf' & Hc' & evs & Htr & Hev).
    exists s'. rewrite round_trips_cons, Hrt1. cbn [snd].
    split; [exact Hrs|]. split; [exact Hwf'|]. split.
    + rewrite Hc', Hc1. cbn [map rev concat].
      assert (Hn : nested_of P t req = nested P r) by (unfold nested_of; by rewrite Hi).
      assert (Hea : entry_after t req = [m'])
        by (unfold entry_after; rewrite Hi; cbn [fst snd]; by rewrite Hm').
      rewrite Hn, Hea, concat_app. cbn [concat]. rewrite !app_nil_r, <- !app_assoc.
      reflexivity.
    + rewrite Hrt1 in Hrt. injection Hrt as ->. cbn [st_trace] in Htr.
      eexists. split; [rewrite Htr, <- app_assoc; reflexivity|].
      rewrite inner_calls_app, Hev. reflexivity.
Qed.


Lemma round_trips_stop P t pre bad post e :
  update_ok (update t) ->
  Forall (fun req => exists r, inner t req = (Some r, None)) pre ->
  (inner t bad).2 = Some e ->
  forall s, exists s' evs,
    round_trips P t (pre ++ bad :: post) s = Ok (Some e) s' /\
    st_trace s' = st_trace s ++ evs /\ inner_calls evs = pre ++ [bad].
Proof.
  intros Hu Hall He. induction Hall as [|req rest [r Hi] _ IH]; intros s.
  - destruct (inner t bad) as [resp err] eqn:Hb. cbn in He. subst err.
    destruct (update_ok_entry (update t) t bad resp (Some e) Hu)
      as [m' Hm']; [right; eexists; reflexivity|].
    pose proof (RoundTrip_error P t bad resp e m' s Hb Hm') as Hrt. cbv zeta in Hrt.
    cbn [app]. rewrite round_trips_cons, Hrt. cbn [snd].
    eexists _, _. split; [reflexivity|]. split; [reflexivity|]. reflexivity.
  - destruct (update_ok_entry (update t) t req (Some r) None Hu)
      as [m' Hm']; [left; eexists; reflexivity|].
    pose proof (RoundTrip_success P t req r m' s Hi Hm') as Hrt. cbv zeta in Hrt.
    cbn [app]. rewrite round_trips_cons, Hrt. cbn [snd].
    match goal with |- context [round_trips P t _ ?s1] =>
      destruct (IH s1) as (s' & evs & Hrs & Htr & Hev) end.
    exists s'. eexists. split; [exact Hrs|].
    split; [rewrite Htr; cbn [st_trace]; rewrite <- app_assoc; reflexivity|].
    rewrite inner_calls_app, Hev. reflexivity.
Qed.


(** ** X10: the attributes an entry ends with under DefaultUpdate *)

(** X10. With [DefaultUpdate] and an inner round tripper that returns a
    response or an error, the call returns and its entry ends with exactly
    these attributes: ["source"] = the timer's name when the name is not
    empty (no ["source"] key otherwise), and one more, ["error"] = the
    error's message when there is an error, else ["code"] = [strconv.Itoa]
    of the status code; a nested metric merged in never replaces it. *)
Theorem RoundTrip_default_attributes_exact (P : Parser) t req s :
  update t = DefaultUpdate ->
  is_Some (inner t req).1 \/ is_Some (inner t req).2 ->
  let src := if bool_decide (name t ≠ "") then <[KeySource := name t]> ∅ else ∅ in
  exists res s' m,
    RoundTrip P t req s = Ok res s' /\
    st_heap s' !! length (st_heap s) = Some m /\
    match inner t req with
    | (_, Some e) => Extra m = Some (<["error" := ErrMsg e]> src)
    | (Some r, None) => Extra m = Some (<["code" := Itoa (StatusCode r)]> src)
    | (None, None) => False
    end.
Proof.
  intros Hu Hre. cbv zeta. rewrite RoundTrip_eq. cbv zeta.
  destruct (inner t req) as [resp err]. cbn [fst snd] in Hre.
  rewrite Hu. unfold DefaultUpdate, set_extra.
  assert (Hx : Extra (entry_stopped t req) =
    Some (if bool_decide (name t ≠ "") then <[KeySource := name t]> ∅ else ∅))
    by reflexivity.
  rewrite Hx. destruct err as [e|].
  - eexists _, _, _. split; [reflexivity|]. split; [cbn; apply lookup_app_last|].
    destruct resp; reflexivity.
  - destruct resp as [r|]; [|destruct Hre as [[? H]|[? H]]; discriminate].
    unfold mbind, M_bind, mret, M_ret. rewrite InsertMetrics_eq. cbv zeta.
    destruct (P (Get (RespHeader r) HeaderKey)) as [more|].
    + eexists _, _, _. split; [reflexivity|].
      split; [cbn; rewrite <- app_assoc; apply list_lookup_middle; reflexivity|]. reflexivity.
    + eexists _, _, _. split; [reflexivity|].
      split; [cbn; apply lookup_app_last|]. reflexivity.
Qed.

(** ** Instances of the further properties *)

Lemma RoundTrip_returns_inner_result_witness :
  let t := timer_with (fun _ => (Some resp_plain, Some err_failed)) "" in
  let r := RoundTrip parse_example t req_example empty_state in
  r = Ok (None, Some err_failed) (final_state r) /\
  (None, Some err_failed) = match (inner t req_example).2 with
                            | Some e => (None, Some e)
                            | None => inner t req_example
                            end.
Proof.
  split; [reflexivity|].
  apply (RoundTrip_returns_inner_result parse_example
           (timer_with (fun _ => (Some resp_plain, Some err_failed)) "")
           req_example empty_state _
           (final_state (RoundTrip parse_example
              (timer_with (fun _ => (Some resp_plain, Some err_failed)) "")
              req_example empty_state))).
  reflexivity.
Defined.

Lemma RoundTrip_nil_response_nil_error_panics_witness :
  let t := timer_with (fun _ => (None, None)) "n" in
  inner t req_example = (None, None) /\
  exists msg s', RoundTrip parse_example t req_example empty_state = Panic msg s'.
Proof.
  split; [reflexivity|].
  apply (RoundTrip_nil_response_nil_error_panics parse_example
           (timer_with (fun _ => (None, None)) "n") req_example empty_state).
  reflexivity.
Defined.


Lemma DefaultMetric_replaces_colons_witness :
  String.get 11 (Host req_example) = Some (Ascii.ascii_of_nat 58) /\
  String.get 11 (DefaultMetric req_example) =
    Some (if Ascii.eqb (Ascii.ascii_of_nat 58) (Ascii.ascii_of_nat 58)
          then Ascii.ascii_of_nat 46 else Ascii.ascii_of_nat 58).
Proof.
  split; [reflexivity|].
  apply (proj1 (proj2 (DefaultMetric_replaces_colons req_example))).
  reflexivity.
Defined.

Lemma Transport_calls_independent_witness :
  let tm := timer_with (fun _ => (Some resp_plain, None)) "base" in
  [tm] !! 0 = Some tm /\
  let '(h1, q1) := Transport [tm] 0 [WithName "a"] in
  let '(h2, q2) := Transport h1 0 [WithName "b"] in
  q1 ≠ q2 /\
  h2 !! 0 = Some tm /\
  h2 !! q1 = Some (run_options [WithName "a"] tm) /\
  h2 !! q2 = Some (run_options [WithName "b"] tm).
Proof.
  split; [reflexivity|].
  apply (Transport_calls_independent
           [timer_with (fun _ => (Some resp_plain, None)) "base"] 0
           (timer_with (fun _ => (Some resp_plain, None)) "base")
           [WithName "a"] [WithName "b"]).
  reflexivity.
Defined.

Lemma options_commute_witness :
  field_of (WithName "a") ≠ field_of (WithDesc DefaultDesc) /\
  New (fun _ => (None, None)) [] ([] ++ WithName "a" :: WithDesc DefaultDesc :: [])
  = New (fun _ => (None, None)) [] ([] ++ WithDesc DefaultDesc :: WithName "a" :: []) /\
  Transport [] 0 ([] ++ WithName "a" :: WithDesc DefaultDesc :: [])
  = Transport [] 0 ([] ++ WithDesc DefaultDesc :: WithName "a" :: []).
Proof.
  split; [cbn; discriminate|].
  apply (options_commute (fun _ => (None, None)) [] 0 [] []
           (WithName "a") (WithDesc DefaultDesc)).
  cbn; discriminate.
Defined.



Lemma RoundTrip_default_attributes_exact_witness :
  let t := timer_with (fun _ => (Some resp_nested, None)) "svc" in
  update t = DefaultUpdate /\
  (is_Some (inner t req_example).1 \/ is_Some (inner t req_example).2) /\
  let src := if bool_decide (name t ≠ "") then <[KeySource := name t]> ∅ else ∅ in
  exists res s' m,
    RoundTrip parse_example t req_example state_A = Ok res s' /\
    st_heap s' !! length (st_heap state_A) = Some m /\
    match inner t req_example with
    | (_, Some e) => Extra m = Some (<["error" := ErrMsg e]> src)
    | (Some r, None) => Extra m = Some (<["code" := Itoa (StatusCode r)]> src)
    | (None, None) => False
    end.
Proof.
  split; [reflexivity|]. split; [left; eexists; reflexivity|].
  apply (RoundTrip_default_attributes_exact parse_example
           (timer_with (fun _ => (Some resp_nested, None)) "svc") req_example state_A).
  - reflexivity.
  - left. eexists. reflexivity.
Defined.
